(** * The shader build driver [build.py], embedded and verified

    The script lists the directory [shaders], runs the shader compiler
    on every entry whose name has exactly three dot-separated segments,
    and finally runs the project with flags chosen by [sys.argv[1]].

    Layout of this file:
    - [PyStr]: the string operations of Python the script uses
      ([in], [str.split], [str.join], slicing);
    - [PosixPath]: [os.path.join] as [posixpath] defines it;
    - [Proc]: the effects of the script (directory listing, child
      processes, uncaught exceptions) as a monad over an explicit
      environment and a trace of the calls issued;
    - [Build]: the script itself, statement by statement;
    - the properties of the script. *)

From Stdlib Require Import String Ascii List Bool Arith ZArith Lia Permutation.
Import ListNotations.
Local Open Scope string_scope.
Local Open Scope list_scope.

(** ** Python strings

    A Python [str] is a sequence of code points; the script only ever
    looks for the characters ['.'] and ['/'], which are single units in
    every encoding of a file name, so a name is modelled as a [string]
    of the Standard Library. *)
Module PyStr.

(** [c in s] for a one-character needle. *)
Fixpoint contains (c : ascii) (s : string) : bool :=
  match s with
  | EmptyString => false
  | String d s' => Ascii.eqb d c || contains c s'
  end.

(** [s.split(sep)] for a one-character separator: the result is never
    empty, and an empty segment is kept wherever two separators meet or
    one starts or ends the string. *)
Fixpoint split (sep : ascii) (s : string) : list string :=
  match s with
  | EmptyString => [EmptyString]
  | String d s' =>
      if Ascii.eqb d sep then EmptyString :: split sep s'
      else match split sep s' with
           | seg :: segs => String d seg :: segs
           | [] => [String d EmptyString]
           end
  end.

(** [sep.join(items)]. *)
Definition join (sep : string) (items : list string) : string :=
  String.concat sep items.

(** [items[lo:hi]] for non-negative bounds. *)
Definition slice {A : Type} (lo hi : nat) (items : list A) : list A :=
  firstn (hi - lo) (skipn lo items).

(** [s.startswith(p)] and [s.endswith(p)]. *)
Fixpoint startswith (p s : string) : bool :=
  match p, s with
  | EmptyString, _ => true
  | String a p', String b s' => Ascii.eqb a b && startswith p' s'
  | String _ _, EmptyString => false
  end.

Definition endswith (p s : string) : bool :=
  let n := String.length s in
  let k := String.length p in
  (k <=? n)%nat && String.eqb (String.substring (n - k) k s) p.

(** Number of occurrences of a character, used only in statements. *)
Fixpoint count (c : ascii) (s : string) : nat :=
  match s with
  | EmptyString => 0
  | String d s' => (if Ascii.eqb d c then 1 else 0) + count c s'
  end.

End PyStr.

(** ** [os.path.join] on POSIX

    The script starts with [#!/usr/bin/python]; [os.path] is
    [posixpath] there.  A component that starts with the separator
    discards what precedes it; otherwise components are glued with
    exactly one separator. *)
Module PosixPath.
Import PyStr.

Definition sep : string := "/".

Definition join_step (path b : string) : string :=
  if startswith sep b then b
  else if String.eqb path "" || endswith sep path then (path ++ b)%string
  else (path ++ sep ++ b)%string.

Definition join (a : string) (p : list string) : string :=
  fold_left join_step p a.

End PosixPath.

(** ** Effects: directory listing, child processes, exceptions *)
Module Proc.

(** The [stdout=] and [stderr=] arguments of [subprocess.run]:
    [None] (the child inherits the stream of the driver),
    [subprocess.PIPE] (captured) and [subprocess.STDOUT]. *)
Inductive stdio : Type := Inherit | PIPE | STDOUT.

(** The calls the driver issues to the operating system, in order. *)
Inductive event : Type :=
| Listdir (path : string)
| Spawn (args : list string) (stdout stderr : stdio).

(** What happens to a child process: it runs to completion with a
    return code, or it cannot be started at all (the executable is
    missing or not executable), in which case [subprocess.run] raises
    an [OSError] ([FileNotFoundError], [PermissionError]). *)
Inductive outcome : Type :=
| Exited (returncode : Z)
| NotStarted.

(** The environment of one run.  [dir_listing path] is what
    [os.listdir path] returns ([None]: it raises [OSError]).
    [spawn_result tr args] is the fate of the child process started
    with [args] after the calls [tr] have been made: it may depend on
    everything that happened before. *)
Record world : Type := {
  dir_listing : string -> option (list string);
  spawn_result : list event -> list string -> outcome
}.

Inductive exn : Type := OSError | CalledProcessError.

(** A computation reads the environment, extends the trace, and ends
    with a value or with an uncaught exception.  The trace survives an
    exception: what was issued before stays issued. *)
Definition M (A : Type) : Type :=
  world -> list event -> list event * (exn + A).

Definition ret {A : Type} (a : A) : M A := fun _ tr => (tr, inr a).

Definition bind {A B : Type} (m : M A) (k : A -> M B) : M B :=
  fun w tr =>
    match m w tr with
    | (tr', inr a) => k a w tr'
    | (tr', inl e) => (tr', inl e)
    end.

Definition raise {A : Type} (e : exn) : M A := fun _ tr => (tr, inl e).

Declare Scope proc_scope.
Delimit Scope proc_scope with proc.
Notation "x <- m ;; k" := (bind m (fun x => k))
  (at level 61, m at next level, right associativity) : proc_scope.
Notation "m ;; k" := (bind m (fun _ => k))
  (at level 61, right associativity) : proc_scope.

(** [for x in xs: body(x)]; a [continue] in the body is the body
    returning early. *)
Fixpoint for_each {A : Type} (xs : list A) (body : A -> M unit) : M unit :=
  match xs with
  | [] => ret tt
  | x :: xs' => bind (body x) (fun _ => for_each xs' body)
  end.

(** [os.listdir(path)]. *)
Definition os_listdir (path : string) : M (list string) :=
  fun w tr =>
    let tr' := tr ++ [Listdir path] in
    match dir_listing w path with
    | Some names => ret names w tr'
    | None => raise OSError w tr'
    end.

Record CompletedProcess : Type := {
  cp_args : list string;
  cp_returncode : Z
}.

(** [subprocess.run(args, stdout=.., stderr=.., check=..)]: blocks
    until the child has terminated.  Only with [check=True] does a
    non-zero return code raise. *)
Definition subprocess_run (args : list string) (stdout stderr : stdio)
    (check : bool) : M CompletedProcess :=
  fun w tr =>
    let tr' := tr ++ [Spawn args stdout stderr] in
    match spawn_result w tr args with
    | NotStarted => raise OSError w tr'
    | Exited rc =>
        if check && negb (rc =? 0)%Z then raise CalledProcessError w tr'
        else ret {| cp_args := args; cp_returncode := rc |} w tr'
    end.

(** The exit status of the interpreter: 0 when the script runs to its
    end, 1 when an exception is not caught. *)
Definition exit_status {A : Type} (r : exn + A) : Z :=
  match r with
  | inr _ => 0%Z
  | inl _ => 1%Z
  end.

End Proc.

(** ** The script *)
Module Build.
Import PyStr Proc.
Local Open Scope proc_scope.

(** [def run_cmd(cmd)]: the child inherits both streams, [check] keeps
    its default [False], and the [CompletedProcess] is dropped (the
    function returns [None]). *)
Definition run_cmd (cmd : list string) : M unit :=
  process <- subprocess_run cmd Inherit Inherit false ;;
  ret tt.

(** [os.path.join("shaders", "bin", ".".join(items[0:2]) + ".spv")]. *)
Definition shader_name (items : list string) : string :=
  PosixPath.join "shaders" ["bin"; (join "." (slice 0 2 items) ++ ".spv")%string].

(** The list bound to [cmd] inside the loop. *)
Definition shader_cmd (entry : string) (items : list string) : list string :=
  ["glslangValidator"; "-V"; PosixPath.join "shaders" [entry]; "-o";
   shader_name items].

(** The body of [for entry in content]. *)
Definition loop_body (entry : string) : M unit :=
  if negb (contains "." entry) then ret tt
  else
    let items := split "." entry in
    if negb (List.length items =? 3)%nat then ret tt
    else run_cmd (shader_cmd entry items).

(** The list bound to [cmd] after the loop, once the mode branch has
    extended it.  [sys.argv[1]] is only read when [len(sys.argv) > 1]. *)
Definition runner_cmd (argv : list string) : list string :=
  let cmd := ["odin"; "run"; "spark"] in
  if (1 <? List.length argv)%nat
     && match nth_error argv 1 with
        | Some a => String.eqb a "release"
        | None => false
        end
  then cmd ++ ["-o:speed"]
  else cmd ++ ["-o:none"; "-debug"].

(** The whole module, run with [sys.argv = argv]. *)
Definition main (argv : list string) : M unit :=
  content <- os_listdir "shaders" ;;
  for_each content loop_body ;;
  run_cmd (runner_cmd argv).

(** One run of the driver from an empty trace. *)
Definition run (w : world) (argv : list string) : list event * (exn + unit) :=
  main argv w [].

Definition trace (w : world) (argv : list string) : list event :=
  fst (run w argv).

Definition driver_exit_status (w : world) (argv : list string) : Z :=
  exit_status (snd (run w argv)).

End Build.

(** ** Observations on a run and sample environments *)
Module Obs.
Import PyStr Proc Build.

(** An entry is compiled when it contains a dot and splits into three
    segments: the two tests of the loop body, in the order it makes
    them. *)
Definition eligible (entry : string) : bool :=
  contains "." entry && (List.length (split "." entry) =? 3)%nat.

(** The call the loop issues for an entry it does not skip. *)
Definition compile_event (entry : string) : event :=
  Spawn (shader_cmd entry (split "." entry)) Inherit Inherit.

(** The call that ends the script. *)
Definition runner_event (argv : list string) : event :=
  Spawn (runner_cmd argv) Inherit Inherit.

(** The argument lists of the child processes of a trace, in order. *)
Definition spawned (tr : list event) : list (list string) :=
  flat_map (fun ev => match ev with
                      | Spawn args _ _ => [args]
                      | Listdir _ => []
                      end) tr.

(** Those whose program is [tool]. *)
Definition invocations_of (tool : string) (tr : list event)
  : list (list string) :=
  filter (fun args => match args with
                      | prog :: _ => String.eqb prog tool
                      | [] => false
                      end) (spawned tr).

Definition compiler_invocations : list event -> list (list string) :=
  invocations_of "glslangValidator".

Definition runner_invocations : list event -> list (list string) :=
  invocations_of "odin".

(** The directory listings of a trace. *)
Definition listings (tr : list event) : list string :=
  flat_map (fun ev => match ev with
                      | Listdir path => [path]
                      | Spawn _ _ _ => []
                      end) tr.

(** [ev] is a compiler call whose input file is [entry] of [shaders]. *)
Definition compiles_entry (ev : event) (entry : string) : Prop :=
  exists out so se,
    ev = Spawn ["glslangValidator"; "-V"; PosixPath.join "shaders" [entry];
                "-o"; out] so se.

(** Every child process of the environment can be started. *)
Definition tools_start (w : world) : Prop :=
  forall tr args, spawn_result w tr args <> NotStarted.

(** Two environments agree on which child processes can be started;
    the return codes are free to differ. *)
Definition same_starts (w1 w2 : world) : Prop :=
  forall tr args,
    spawn_result w1 tr args = NotStarted <->
    spawn_result w2 tr args = NotStarted.

(** The run reaches the end of the script. *)
Definition completes (w : world) (argv : list string) : Prop :=
  snd (run w argv) = inr tt.

(** An environment in which [shaders] holds [names] and every child
    process exits with [rc]. *)
Definition world_exiting (names : list string) (rc : Z) : world :=
  {| dir_listing := fun _ => Some names;
     spawn_result := fun _ _ => Exited rc |}.

(** An environment in which the program [missing] is not installed and
    every other child process exits with 0. *)
Definition world_without (names : list string) (missing : string) : world :=
  {| dir_listing := fun _ => Some names;
     spawn_result := fun _ args =>
       if String.eqb (hd EmptyString args) missing then NotStarted
       else Exited 0 |}.

(** An environment in which the program [failing] exits with [rc] and
    every other child process exits with 0. *)
Definition world_failing (names : list string) (failing : string) (rc : Z)
  : world :=
  {| dir_listing := fun _ => Some names;
     spawn_result := fun _ args =>
       if String.eqb (hd EmptyString args) failing then Exited rc
       else Exited 0 |}.

Definition sample_listing : list string :=
  ["tri.vert.glsl"; "bin"; "tri.frag.glsl"; "readme.txt"; "a.b.c.glsl"].

End Obs.

(** ** The shapes a run can take *)
Module Shapes.
Import PyStr Proc Build Obs.

(** The calls made once the loop has gone through the entries [l]
    without an exception: the listing, then one compiler call per
    eligible entry of [l]. *)
Definition loop_trace (l : list string) : list event :=
  Listdir "shaders" :: map compile_event (filter eligible l).

(** The compiler can always be started (the runner may not). *)
Definition compiler_starts (w : world) : Prop :=
  forall tr entry,
    spawn_result w tr (shader_cmd entry (split "." entry)) <> NotStarted.

(** The four ways a run can go: [os.listdir] raises (line 7); the
    compiler cannot be started for some eligible entry (line 39); the
    runner cannot be started (line 47); or the script reaches its
    end. *)
Inductive run_shape (w : world) (argv : list string) : Prop :=
| ListingFailed :
    dir_listing w "shaders" = None ->
    run w argv = ([Listdir "shaders"], inl OSError) ->
    run_shape w argv
| CompilerNotStarted (pre post : list string) (entry : string) :
    dir_listing w "shaders" = Some (pre ++ entry :: post) ->
    eligible entry = true ->
    spawn_result w (loop_trace pre) (shader_cmd entry (split "." entry))
      = NotStarted ->
    run w argv = (loop_trace pre ++ [compile_event entry], inl OSError) ->
    run_shape w argv
| RunnerNotStarted (content : list string) :
    dir_listing w "shaders" = Some content ->
    spawn_result w (loop_trace content) (runner_cmd argv) = NotStarted ->
    run w argv = (loop_trace content ++ [runner_event argv], inl OSError) ->
    run_shape w argv
| Completed (content : list string) (rc : Z) :
    dir_listing w "shaders" = Some content ->
    spawn_result w (loop_trace content) (runner_cmd argv) = Exited rc ->
    run w argv = (loop_trace content ++ [runner_event argv], inr tt) ->
    run_shape w argv.

(** The compiler can be started for every eligible entry of [l], at
    the point of the run at which the loop comes to it. *)
Definition compiler_starts_before (w : world) (l : list string) : Prop :=
  forall pre entry post,
    l = pre ++ entry :: post ->
    eligible entry = true ->
    spawn_result w (loop_trace pre) (shader_cmd entry (split "." entry))
      <> NotStarted.

(** Two environments agree on which of the child processes of a run
    over [content] with arguments [argv] can be started, at the points
    of the run at which the driver starts them; the return codes are
    free to differ, and so is everything the driver never asks. *)
Definition same_starts_on (w1 w2 : world) (content argv : list string)
  : Prop :=
  (forall pre entry post,
      content = pre ++ entry :: post ->
      eligible entry = true ->
      (spawn_result w1 (loop_trace pre) (shader_cmd entry (split "." entry))
         = NotStarted <->
       spawn_result w2 (loop_trace pre) (shader_cmd entry (split "." entry))
         = NotStarted))
  /\ (spawn_result w1 (loop_trace content) (runner_cmd argv) = NotStarted <->
      spawn_result w2 (loop_trace content) (runner_cmd argv) = NotStarted).

End Shapes.

Import PyStr Proc Build Obs Shapes.

(** ** Facts about the string operations *)
Section StringFacts.

Variable sep : ascii.

Lemma split_not_nil (s : string) : split sep s <> [].
Proof.
  destruct s as [|d s']; simpl; [discriminate|].
  destruct (Ascii.eqb d sep); [discriminate|].
  destruct (split sep s'); discriminate.
Qed.

(** One more segment than separators. *)
Lemma split_length (s : string) :
  List.length (split sep s) = S (count sep s).
Proof.
  induction s as [|d s' IH]; simpl; [reflexivity|].
  destruct (Ascii.eqb d sep); simpl.
  - now rewrite IH.
  - destruct (split sep s') as [|seg segs] eqn:E.
    + now destruct (split_not_nil s').
    + simpl in *. exact IH.
Qed.

Lemma contains_count (s : string) :
  contains sep s = negb (count sep s =? 0)%nat.
Proof.
  induction s as [|d s' IH]; simpl; [reflexivity|].
  destruct (Ascii.eqb d sep); simpl; [reflexivity|exact IH].
Qed.

(** Joining the segments with the separator gives the string back. *)
Lemma join_split (s : string) :
  join (String sep EmptyString) (split sep s) = s.
Proof.
  unfold join.
  induction s as [|d s' IH]; simpl; [reflexivity|].
  destruct (Ascii.eqb_spec d sep) as [->|Hne].
  - destruct (split sep s') as [|seg segs] eqn:E.
    + now destruct (split_not_nil s').
    + simpl. f_equal. exact IH.
  - destruct (split sep s') as [|seg segs] eqn:E.
    + now destruct (split_not_nil s').
    + simpl in *. destruct segs; simpl in *; now rewrite IH.
Qed.

(** A string without the separator is its own single segment. *)
Lemma split_no_sep (s : string) :
  contains sep s = false -> split sep s = [s].
Proof.
  induction s as [|d s' IH]; simpl; [reflexivity|].
  intros H. apply orb_false_iff in H as [H1 H2].
  rewrite H1, (IH H2). reflexivity.
Qed.

(** Splitting after a first segment that has no separator. *)
Lemma split_app_sep (a t : string) :
  contains sep a = false ->
  split sep (a ++ String sep t) = a :: split sep t.
Proof.
  induction a as [|d a' IH]; simpl; intros H.
  - now rewrite Ascii.eqb_refl.
  - apply orb_false_iff in H as [H1 H2].
    rewrite H1, (IH H2). reflexivity.
Qed.

(** No segment contains the separator. *)
Lemma split_segments_clean (s : string) :
  Forall (fun seg => contains sep seg = false) (split sep s).
Proof.
  induction s as [|d s' IH]; simpl.
  - constructor; [reflexivity|constructor].
  - destruct (Ascii.eqb d sep) eqn:E.
    + constructor; [reflexivity|exact IH].
    + destruct (split sep s') as [|seg segs].
      * constructor; [simpl; now rewrite E|constructor].
      * inversion IH; subst. constructor; [simpl; now rewrite E|assumption].
Qed.

End StringFacts.

Lemma string_app_assoc (a b c : string) :
  ((a ++ b) ++ c = a ++ (b ++ c))%string.
Proof. induction a as [|d a' IH]; simpl; [reflexivity|now rewrite IH]. Qed.

Lemma string_app_inv_head (a b c : string) :
  (a ++ b = a ++ c)%string -> b = c.
Proof.
  induction a as [|d a' IH]; simpl; intros H; [exact H|].
  injection H as H. exact (IH H).
Qed.

(** ** Facts about the paths the script builds *)

(** Whether a name starts with the path separator is decided by its
    first segment. *)
Lemma startswith_sep_app (a t : string) :
  startswith PosixPath.sep (a ++ String "." t) = startswith PosixPath.sep a.
Proof.
  destruct a as [|d a']; reflexivity.
Qed.

(** [os.path.join("shaders", entry)]. *)
Lemma join_shaders (entry : string) :
  PosixPath.join "shaders" [entry] =
  if startswith PosixPath.sep entry then entry
  else ("shaders/" ++ entry)%string.
Proof.
  unfold PosixPath.join. cbn [fold_left]. unfold PosixPath.join_step.
  destruct (startswith PosixPath.sep entry); reflexivity.
Qed.

(** [os.path.join("shaders", "bin", file)]. *)
Lemma join_shaders_bin (file : string) :
  PosixPath.join "shaders" ["bin"; file] =
  if startswith PosixPath.sep file then file
  else ("shaders/bin/" ++ file)%string.
Proof.
  unfold PosixPath.join. cbn [fold_left].
  change (PosixPath.join_step "shaders" "bin") with "shaders/bin".
  unfold PosixPath.join_step.
  destruct (startswith PosixPath.sep file); reflexivity.
Qed.

(** The input path determines the entry. *)
Lemma join_shaders_inj (e1 e2 : string) :
  PosixPath.join "shaders" [e1] = PosixPath.join "shaders" [e2] -> e1 = e2.
Proof.
  rewrite !join_shaders.
  destruct (startswith PosixPath.sep e1) eqn:H1,
           (startswith PosixPath.sep e2) eqn:H2; intros H.
  - exact H.
  - subst e1. discriminate H1.
  - subst e2. discriminate H2.
  - exact (string_app_inv_head "shaders/" _ _ H).
Qed.

(** The output path of a name with three segments. *)
Lemma shader_name_three (name stage ext : string) :
  shader_name [name; stage; ext] =
  if startswith PosixPath.sep name
  then (name ++ "." ++ stage ++ ".spv")%string
  else ("shaders/bin/" ++ name ++ "." ++ stage ++ ".spv")%string.
Proof.
  unfold shader_name. rewrite join_shaders_bin.
  unfold slice, join. simpl firstn. simpl String.concat.
  rewrite string_app_assoc. simpl append at 2.
  change (name ++ String "." (stage ++ ".spv"))%string
    with (name ++ "." ++ stage ++ ".spv")%string.
  replace (startswith PosixPath.sep (name ++ "." ++ stage ++ ".spv"))
    with (startswith PosixPath.sep name)
    by (symmetry; apply (startswith_sep_app name (stage ++ ".spv"))).
  reflexivity.
Qed.

(** A name with three segments is those segments around two dots. *)
Lemma three_segments_name (entry name stage ext : string) :
  split "." entry = [name; stage; ext] ->
  entry = (name ++ "." ++ stage ++ "." ++ ext)%string.
Proof.
  intros H. rewrite <- (join_split "." entry) at 1. rewrite H. reflexivity.
Qed.

Lemma three_segments_split (name stage ext : string) :
  contains "." name = false ->
  contains "." stage = false ->
  contains "." ext = false ->
  split "." (name ++ "." ++ stage ++ "." ++ ext) = [name; stage; ext].
Proof.
  intros Hn Hs He.
  change (name ++ "." ++ stage ++ "." ++ ext)%string
    with (name ++ String "." (stage ++ String "." ext))%string.
  rewrite (split_app_sep "." name _ Hn), (split_app_sep "." stage _ Hs).
  now rewrite (split_no_sep "." ext He).
Qed.

(** ** Eligibility *)

Lemma eligible_iff (entry : string) :
  eligible entry = true <->
  contains "." entry = true /\ List.length (split "." entry) = 3.
Proof.
  unfold eligible. rewrite andb_true_iff, Nat.eqb_eq. reflexivity.
Qed.

(** Eligible names are the names with exactly two dots. *)
Lemma eligible_two_dots (entry : string) :
  eligible entry = true <-> count "." entry = 2.
Proof.
  rewrite eligible_iff, contains_count, split_length.
  destruct (count "." entry) as [|[|[|n]]]; simpl; split;
    try (intros [H1 H2]); try intros H; try discriminate; try lia; auto.
Qed.

Lemma eligible_split (entry : string) :
  eligible entry = true <->
  exists name stage ext, split "." entry = [name; stage; ext].
Proof.
  split.
  - intros H. apply eligible_iff in H as [_ H].
    destruct (split "." entry) as [|a [|b [|c [|d l]]]]; try discriminate.
    now exists a, b, c.
  - intros (name & stage & ext & H).
    apply eligible_two_dots.
    pose proof (split_length "." entry) as L. rewrite H in L. simpl in L. lia.
Qed.

(** ** The loop body and the loop *)

Lemma run_cmd_exited (cmd : list string) (w : world) (tr : list event) (rc : Z) :
  spawn_result w tr cmd = Exited rc ->
  run_cmd cmd w tr = (tr ++ [Spawn cmd Inherit Inherit], inr tt).
Proof.
  intros H. unfold run_cmd, bind, subprocess_run. rewrite H. reflexivity.
Qed.

Lemma run_cmd_not_started (cmd : list string) (w : world) (tr : list event) :
  spawn_result w tr cmd = NotStarted ->
  run_cmd cmd w tr = (tr ++ [Spawn cmd Inherit Inherit], inl OSError).
Proof.
  intros H. unfold run_cmd, bind, subprocess_run. rewrite H. reflexivity.
Qed.

(** Whatever happens to the child, the call is what [run_cmd] adds to
    the trace. *)
Lemma run_cmd_trace (cmd : list string) (w : world) (tr : list event) :
  fst (run_cmd cmd w tr) = tr ++ [Spawn cmd Inherit Inherit].
Proof.
  destruct (spawn_result w tr cmd) as [rc|] eqn:E.
  - now rewrite (run_cmd_exited _ _ _ _ E).
  - now rewrite (run_cmd_not_started _ _ _ E).
Qed.

(** The only exception [run_cmd] can end with is the one of a child
    that does not start. *)
Lemma run_cmd_result (cmd : list string) (w : world) (tr : list event) :
  snd (run_cmd cmd w tr) =
  match spawn_result w tr cmd with
  | Exited _ => inr tt
  | NotStarted => inl OSError
  end.
Proof.
  destruct (spawn_result w tr cmd) as [rc|] eqn:E.
  - now rewrite (run_cmd_exited _ _ _ _ E).
  - now rewrite (run_cmd_not_started _ _ _ E).
Qed.

(** The two tests of the body amount to [eligible]. *)
Lemma loop_body_eq (entry : string) :
  loop_body entry =
  if eligible entry then run_cmd (shader_cmd entry (split "." entry))
  else ret tt.
Proof.
  unfold loop_body, eligible.
  destruct (contains "." entry); simpl; [|reflexivity].
  destruct (List.length (split "." entry) =? 3)%nat; reflexivity.
Qed.

Lemma loop_body_skip (entry : string) (w : world) (tr : list event) :
  eligible entry = false -> loop_body entry w tr = (tr, inr tt).
Proof. intros H. rewrite loop_body_eq, H. reflexivity. Qed.

Lemma loop_body_trace (entry : string) (w : world) (tr : list event) :
  eligible entry = true ->
  fst (loop_body entry w tr) = tr ++ [compile_event entry].
Proof. intros H. rewrite loop_body_eq, H. apply run_cmd_trace. Qed.

Lemma for_each_app {A : Type} (xs ys : list A) (body : A -> M unit)
    (w : world) (tr : list event) :
  for_each (xs ++ ys) body w tr =
  bind (for_each xs body) (fun _ => for_each ys body) w tr.
Proof.
  revert tr. induction xs as [|x xs IH]; intros tr; simpl.
  - reflexivity.
  - unfold bind in *.
    destruct (body x w tr) as [tr1 [e|[]]]; [reflexivity|].
    apply IH.
Qed.

Section Loop.

Variable w : world.

(** The calls of a loop that runs to its end: one per eligible entry,
    in the order of the listing. *)
Lemma loop_completed (content : list string) :
  forall tr tr',
    for_each content loop_body w tr = (tr', inr tt) ->
    tr' = tr ++ map compile_event (filter eligible content).
Proof.
  induction content as [|entry rest IH]; intros tr tr' H; simpl in *.
  - unfold ret in H. injection H as <-. now rewrite app_nil_r.
  - unfold bind in H. rewrite loop_body_eq in H.
    destruct (eligible entry) eqn:E.
    + pose proof (run_cmd_trace (shader_cmd entry (split "." entry)) w tr) as T.
      destruct (run_cmd _ w tr) as [tr1 [e|[]]]; [discriminate|].
      simpl in T. subst tr1. rewrite (IH _ _ H).
      simpl. now rewrite <- app_assoc.
    + unfold ret in H. exact (IH _ _ H).
Qed.

(** In any run of the loop, completed or not, the calls are those of
    the eligible entries of a prefix of the listing; the loop stops
    early only on [OSError]. *)
Lemma loop_prefix (content : list string) :
  forall tr,
    exists pre post,
      content = pre ++ post /\
      fst (for_each content loop_body w tr) =
        tr ++ map compile_event (filter eligible pre) /\
      (snd (for_each content loop_body w tr) = inr tt /\ post = [] \/
       snd (for_each content loop_body w tr) = inl OSError).
Proof.
  induction content as [|entry rest IH]; intros tr; simpl.
  - exists [], []. simpl. rewrite app_nil_r. auto.
  - unfold bind. rewrite loop_body_eq.
    destruct (eligible entry) eqn:E.
    + pose proof (run_cmd_trace (shader_cmd entry (split "." entry)) w tr) as T.
      pose proof (run_cmd_result (shader_cmd entry (split "." entry)) w tr) as R.
      destruct (run_cmd _ w tr) as [tr1 [e|[]]]; simpl in T, R; subst tr1.
      * exists [entry], rest. simpl. rewrite E. simpl. split; [reflexivity|].
        split; [reflexivity|]. right.
        destruct (spawn_result w tr _); [discriminate|exact R].
      * destruct (IH (tr ++ [Spawn (shader_cmd entry (split "." entry))
                                 Inherit Inherit]))
          as (pre & post & -> & T & R').
        exists (entry :: pre), post. simpl. rewrite E. simpl.
        split; [reflexivity|]. split; [|exact R'].
        rewrite T, <- app_assoc. reflexivity.
    + unfold ret.
      destruct (IH tr) as (pre & post & -> & T & R).
      exists (entry :: pre), post. simpl. rewrite E. auto.
Qed.

(** When every child process starts, the loop runs to its end. *)
Lemma loop_started (content : list string) :
  tools_start w ->
  forall tr,
    for_each content loop_body w tr =
    (tr ++ map compile_event (filter eligible content), inr tt).
Proof.
  intros Hs. induction content as [|entry rest IH]; intros tr; simpl.
  - unfold ret. now rewrite app_nil_r.
  - unfold bind. rewrite loop_body_eq.
    destruct (eligible entry) eqn:E.
    + destruct (spawn_result w tr (shader_cmd entry (split "." entry)))
        as [rc|] eqn:S; [|now destruct (Hs _ _ S)].
      rewrite (run_cmd_exited _ _ _ _ S), IH. simpl.
      now rewrite <- app_assoc.
    + unfold ret. apply IH.
Qed.

(** A compiler that does not start ends the loop there. *)
Lemma loop_abort (pre post : list string) (entry : string)
    (tr tr1 : list event) :
  for_each pre loop_body w tr = (tr1, inr tt) ->
  eligible entry = true ->
  spawn_result w tr1 (shader_cmd entry (split "." entry)) = NotStarted ->
  for_each (pre ++ entry :: post) loop_body w tr =
  (tr1 ++ [compile_event entry], inl OSError).
Proof.
  intros Hpre E S. rewrite for_each_app. unfold bind at 1. rewrite Hpre.
  simpl. unfold bind. rewrite loop_body_eq, E.
  now rewrite (run_cmd_not_started _ _ _ S).
Qed.

Variable argv : list string.

(** The run, statement by statement. *)
Lemma run_unfold :
  run w argv =
  match dir_listing w "shaders" with
  | None => ([Listdir "shaders"], inl OSError)
  | Some content =>
      match for_each content loop_body w [Listdir "shaders"] with
      | (tr1, inr _) => run_cmd (runner_cmd argv) w tr1
      | (tr1, inl e) => (tr1, inl e)
      end
  end.
Proof.
  unfold run, main, bind, os_listdir. simpl.
  destruct (dir_listing w "shaders"); reflexivity.
Qed.

(** The trace of a run that reaches the end of the script. *)
Lemma run_completed_trace (content : list string) :
  dir_listing w "shaders" = Some content ->
  completes w argv ->
  trace w argv =
  Listdir "shaders" :: map compile_event (filter eligible content)
    ++ [runner_event argv].
Proof.
  unfold completes, trace. rewrite run_unfold. intros -> H.
  destruct (for_each content loop_body w [Listdir "shaders"])
    as [tr1 [e|[]]] eqn:L; [discriminate|].
  apply loop_completed in L. subst tr1.
  rewrite run_cmd_trace. reflexivity.
Qed.

(** When the listing succeeds and every child process starts, the run
    reaches the end of the script. *)
Lemma run_started (content : list string) :
  dir_listing w "shaders" = Some content ->
  tools_start w ->
  run w argv =
  (Listdir "shaders" :: map compile_event (filter eligible content)
     ++ [runner_event argv], inr tt).
Proof.
  intros HL Hs. rewrite run_unfold, HL, (loop_started content Hs).
  destruct (spawn_result w ([Listdir "shaders"] ++
              map compile_event (filter eligible content)) (runner_cmd argv))
    as [rc|] eqn:S; [|now destruct (Hs _ _ S)].
  now rewrite (run_cmd_exited _ _ _ _ S).
Qed.

(** Every call of any run is the listing, a compiler call for an
    eligible entry of the listing, or the runner call. *)
Lemma run_events (ev : event) :
  In ev (trace w argv) ->
  ev = Listdir "shaders" \/
  ev = runner_event argv \/
  exists content entry,
    dir_listing w "shaders" = Some content /\
    In entry content /\ eligible entry = true /\ ev = compile_event entry.
Proof.
  unfold trace. rewrite run_unfold.
  destruct (dir_listing w "shaders") as [content|] eqn:HL.
  - destruct (loop_prefix content [Listdir "shaders"])
      as (pre & post & Hc & T & _).
    assert (Hin : forall ev', In ev' (fst (for_each content loop_body w
                     [Listdir "shaders"])) ->
              ev' = Listdir "shaders" \/
              exists entry, In entry content /\ eligible entry = true /\
                            ev' = compile_event entry).
    { intros ev'. rewrite T. simpl. intros [<-|H]; [now left|right].
      apply in_map_iff in H as (entry & <- & H).
      apply filter_In in H as [H1 H2]. exists entry. subst content.
      split; [apply in_or_app; now left|auto]. }
    destruct (for_each content loop_body w [Listdir "shaders"])
      as [tr1 [e|[]]]; simpl in Hin.
    + simpl. intros H. destruct (Hin _ H) as [->|(entry & ? & ? & ->)];
        [now left|right; right; now exists content, entry].
    + rewrite run_cmd_trace. intros H. apply in_app_or in H as [H|H].
      * destruct (Hin _ H) as [->|(entry & ? & ? & ->)];
          [now left|right; right; now exists content, entry].
      * destruct H as [<-|[]]. right; now left.
  - simpl. intros [<-|[]]. now left.
Qed.

End Loop.

(** ** Return codes do not matter *)

Section SameStarts.

Variables w1 w2 : world.
Hypothesis Hsame : same_starts w1 w2.

Lemma run_cmd_same (cmd : list string) (tr : list event) :
  run_cmd cmd w1 tr = run_cmd cmd w2 tr.
Proof.
  destruct (spawn_result w1 tr cmd) as [rc1|] eqn:S1.
  - destruct (spawn_result w2 tr cmd) as [rc2|] eqn:S2.
    + now rewrite (run_cmd_exited _ _ _ _ S1), (run_cmd_exited _ _ _ _ S2).
    + apply Hsame in S2. congruence.
  - pose proof (proj1 (Hsame tr cmd) S1) as S2.
    now rewrite (run_cmd_not_started _ _ _ S1), (run_cmd_not_started _ _ _ S2).
Qed.

Lemma loop_same (content : list string) :
  forall tr,
    for_each content loop_body w1 tr = for_each content loop_body w2 tr.
Proof.
  induction content as [|entry rest IH]; intros tr; simpl; [reflexivity|].
  unfold bind. rewrite !loop_body_eq.
  destruct (eligible entry).
  - rewrite run_cmd_same.
    destruct (run_cmd _ w2 tr) as [tr1 [e|[]]]; [reflexivity|apply IH].
  - unfold ret. apply IH.
Qed.

(** The run depends on the environment only through the listing and
    through which child processes start. *)
Lemma run_same (argv : list string) :
  dir_listing w1 "shaders" = dir_listing w2 "shaders" ->
  run w1 argv = run w2 argv.
Proof.
  intros HL. rewrite !run_unfold, HL.
  destruct (dir_listing w2 "shaders") as [content|]; [|reflexivity].
  rewrite loop_same.
  destruct (for_each content loop_body w2 [Listdir "shaders"])
    as [tr1 [e|[]]]; [reflexivity|apply run_cmd_same].
Qed.

End SameStarts.

(** ** Which entries are compiled *)

Lemma runner_cmd_cases (argv : list string) :
  runner_cmd argv = ["odin"; "run"; "spark"; "-o:speed"] \/
  runner_cmd argv = ["odin"; "run"; "spark"; "-o:none"; "-debug"].
Proof.
  unfold runner_cmd.
  destruct ((1 <? List.length argv)%nat && _); simpl; auto.
Qed.

(** A compiler call for [entry] is only ever issued for an eligible
    [entry], in any run. *)
Lemma invoked_eligible (w : world) (argv : list string) (entry : string) :
  (exists ev, In ev (trace w argv) /\ compiles_entry ev entry) ->
  eligible entry = true.
Proof.
  intros (ev & Hin & out & so & se & ->).
  apply run_events in Hin as [H|[H|(content & e' & _ & _ & E & H)]].
  - discriminate H.
  - unfold runner_event in H.
    destruct (runner_cmd_cases argv) as [R|R]; rewrite R in H; discriminate H.
  - unfold compile_event, shader_cmd in H. injection H as H _ _ _.
    apply join_shaders_inj in H. now subst e'.
Qed.

(** ** The output path *)

(** What the loop body issues for a name with three segments. *)
Lemma loop_body_three (entry name stage ext : string)
    (w : world) (tr : list event) :
  split "." entry = [name; stage; ext] ->
  startswith PosixPath.sep entry = false ->
  fst (loop_body entry w tr) =
  tr ++ [Spawn ["glslangValidator"; "-V"; ("shaders/" ++ entry)%string; "-o";
                ("shaders/bin/" ++ name ++ "." ++ stage ++ ".spv")%string]
           Inherit Inherit].
Proof.
  intros Hs Hsep.
  assert (E : eligible entry = true)
    by (apply eligible_split; now exists name, stage, ext).
  rewrite (loop_body_trace _ _ _ E).
  unfold compile_event, shader_cmd.
  rewrite Hs, join_shaders, shader_name_three, Hsep.
  rewrite (three_segments_name _ _ _ _ Hs) in Hsep.
  change (name ++ "." ++ stage ++ "." ++ ext)%string
    with (name ++ String "." (stage ++ "." ++ ext))%string in Hsep.
  rewrite startswith_sep_app in Hsep. now rewrite Hsep.
Qed.

(** C2. For an entry whose name splits on dots into the three segments
    [name], [stage] and [ext], the output path handed to the compiler
    is [shaders/bin/<name>.<stage>.spv]: the first two segments, joined
    by a dot, followed by [.spv] instead of the extension.  The entry
    is a name of a directory listing, so it does not start with the
    path separator. *)
Theorem output_path_of_three_segments
    (entry name stage ext : string) (w : world) (tr : list event) :
  split "." entry = [name; stage; ext] ->
  startswith PosixPath.sep entry = false ->
  entry = (name ++ "." ++ stage ++ "." ++ ext)%string
  /\ shader_name (split "." entry) =
     ("shaders/bin/" ++ name ++ "." ++ stage ++ ".spv")%string
  /\ fst (loop_body entry w tr) =
     tr ++ [Spawn ["glslangValidator"; "-V"; ("shaders/" ++ entry)%string;
                   "-o"; shader_name (split "." entry)] Inherit Inherit].
Proof.
  intros Hs Hsep.
  assert (P : shader_name (split "." entry) =
              ("shaders/bin/" ++ name ++ "." ++ stage ++ ".spv")%string).
  { rewrite Hs, shader_name_three.
    pose proof Hsep as H. rewrite (three_segments_name _ _ _ _ Hs) in H.
    change (name ++ "." ++ stage ++ "." ++ ext)%string
      with (name ++ String "." (stage ++ "." ++ ext))%string in H.
    rewrite startswith_sep_app in H. now rewrite H. }
  split; [exact (three_segments_name _ _ _ _ Hs)|]. split; [exact P|].
  rewrite P. exact (loop_body_three _ _ _ _ w tr Hs Hsep).
Qed.

Lemma output_path_of_three_segments_witness :
  split "." "foo.vert.glsl" = ["foo"; "vert"; "glsl"]
  /\ startswith PosixPath.sep "foo.vert.glsl" = false
  /\ shader_name (split "." "foo.vert.glsl") = "shaders/bin/foo.vert.spv".
Proof.
  split; [reflexivity|]. split; [reflexivity|].
  exact (proj1 (proj2 (output_path_of_three_segments
                         "foo.vert.glsl" "foo" "vert" "glsl"
                         (world_exiting [] 0) []
                         eq_refl eq_refl))).
Defined.

(** ** The mode *)

(** C3. The flags of the runner call depend on [sys.argv[1]] alone:
    when it exists and is the string [release], the call is
    [odin run spark -o:speed]; for any other value, and when it is
    absent, the call is [odin run spark -o:none -debug].  Two argument
    vectors that agree at index 1 give the same call, whatever the
    script name and the later arguments are, and this call is the last
    one of every run that reaches the end of the script. *)
Theorem runner_flags_from_first_argument (argv : list string) :
  (nth_error argv 1 = Some "release" ->
     runner_cmd argv = ["odin"; "run"; "spark"] ++ ["-o:speed"])
  /\ (nth_error argv 1 <> Some "release" ->
        runner_cmd argv = ["odin"; "run"; "spark"] ++ ["-o:none"; "-debug"])
  /\ (forall argv' : list string,
        nth_error argv' 1 = nth_error argv 1 ->
        runner_cmd argv' = runner_cmd argv)
  /\ (forall w : world,
        completes w argv ->
        exists tr, trace w argv = tr ++ [Spawn (runner_cmd argv) Inherit Inherit]).
Proof.
  assert (Hlen : forall l : list string,
             (1 <? List.length l)%nat =
             match nth_error l 1 with Some _ => true | None => false end).
  { intros [|a [|b l]]; reflexivity. }
  assert (Hcmd : forall l : list string,
             runner_cmd l =
             if match nth_error l 1 with
                | Some a => String.eqb a "release"
                | None => false
                end
             then ["odin"; "run"; "spark"; "-o:speed"]
             else ["odin"; "run"; "spark"; "-o:none"; "-debug"]).
  { intros l. unfold runner_cmd. rewrite Hlen.
    destruct (nth_error l 1) as [a|]; [|reflexivity].
    simpl. destruct (String.eqb a "release"); reflexivity. }
  repeat split.
  - intros H. rewrite Hcmd, H. reflexivity.
  - intros H. rewrite Hcmd. destruct (nth_error argv 1) as [a|]; [|reflexivity].
    destruct (String.eqb_spec a "release") as [->|Hne]; [now destruct H|reflexivity].
  - intros argv' H. rewrite !Hcmd, H. reflexivity.
  - intros w H. pose proof H as H'. unfold completes in H'.
    rewrite run_unfold in H'.
    destruct (dir_listing w "shaders") as [content|] eqn:HL; [|discriminate].
    exists (Listdir "shaders" :: map compile_event (filter eligible content)).
    exact (run_completed_trace w argv content HL H).
Qed.

Lemma runner_flags_from_first_argument_witness :
  nth_error ["build.py"; "release"; "verbose"] 1 = Some "release"
  /\ runner_cmd ["build.py"; "release"; "verbose"] =
     ["odin"; "run"; "spark"; "-o:speed"]
  /\ nth_error ["build.py"; "Release"] 1 <> Some "release"
  /\ runner_cmd ["build.py"; "Release"] =
     ["odin"; "run"; "spark"; "-o:none"; "-debug"]
  /\ nth_error ["build.py"] 1 <> Some "release"
  /\ runner_cmd ["build.py"] = ["odin"; "run"; "spark"; "-o:none"; "-debug"].
Proof.
  split; [reflexivity|]. split.
  { exact (proj1 (runner_flags_from_first_argument
                    ["build.py"; "release"; "verbose"]) eq_refl). }
  assert (N1 : nth_error ["build.py"; "Release"] 1 <> Some "release")
    by (simpl; discriminate).
  assert (N2 : nth_error ["build.py"] 1 <> Some "release")
    by (simpl; discriminate).
  split; [exact N1|]. split.
  { exact (proj1 (proj2 (runner_flags_from_first_argument
                           ["build.py"; "Release"])) N1). }
  split; [exact N2|].
  exact (proj1 (proj2 (runner_flags_from_first_argument ["build.py"])) N2).
Defined.

(** ** Reading the calls off a trace *)

Lemma invocations_of_app (tool : string) (tr1 tr2 : list event) :
  invocations_of tool (tr1 ++ tr2) =
  invocations_of tool tr1 ++ invocations_of tool tr2.
Proof.
  unfold invocations_of, spawned. now rewrite flat_map_app, filter_app.
Qed.

Lemma compiler_invocations_compile (l : list string) :
  compiler_invocations (map compile_event l) =
  map (fun e => shader_cmd e (split "." e)) l.
Proof.
  induction l as [|e l IH]; [reflexivity|].
  change (map compile_event (e :: l))
    with ([compile_event e] ++ map compile_event l).
  unfold compiler_invocations in *. rewrite invocations_of_app, IH.
  reflexivity.
Qed.

Lemma runner_invocations_compile (l : list string) :
  runner_invocations (map compile_event l) = [].
Proof.
  induction l as [|e l IH]; [reflexivity|].
  change (map compile_event (e :: l))
    with ([compile_event e] ++ map compile_event l).
  unfold runner_invocations in *. rewrite invocations_of_app, IH.
  reflexivity.
Qed.

Lemma invocations_runner (argv : list string) :
  compiler_invocations [runner_event argv] = [] /\
  runner_invocations [runner_event argv] = [runner_cmd argv].
Proof.
  unfold runner_event.
  destruct (runner_cmd_cases argv) as [R|R]; rewrite R; split; reflexivity.
Qed.

(** The calls of a completed trace, by program. *)
Lemma invocations_completed (content argv : list string) :
  let tr := Listdir "shaders" :: map compile_event (filter eligible content)
              ++ [runner_event argv] in
  listings tr = ["shaders"] /\
  compiler_invocations tr =
    map (fun e => shader_cmd e (split "." e)) (filter eligible content) /\
  runner_invocations tr = [runner_cmd argv].
Proof.
  intros tr. subst tr.
  destruct (invocations_runner argv) as [R1 R2]. repeat split.
  - unfold listings. simpl. f_equal. rewrite flat_map_app. simpl.
    rewrite app_nil_r. induction (filter eligible content); [reflexivity|assumption].
  - change (Listdir "shaders" :: ?l) with ([Listdir "shaders"] ++ l).
    unfold compiler_invocations in *. rewrite !invocations_of_app, R1.
    fold compiler_invocations. rewrite compiler_invocations_compile.
    now rewrite app_nil_r.
  - change (Listdir "shaders" :: ?l) with ([Listdir "shaders"] ++ l).
    unfold runner_invocations in *. rewrite !invocations_of_app, R2.
    fold runner_invocations. now rewrite runner_invocations_compile.
Qed.

(** ** Failures of the compiler *)




(** ** The shape of a compiler call *)

(** C7. Every call of a run whose program is the compiler has the
    arguments [glslangValidator -V <input> -o <output>], where the
    input is [shaders] joined with the name of an entry of the listing
    that has three segments, and the output is [shaders] joined with
    [bin] and with the first two segments followed by [.spv].  The
    child inherits both output streams of the driver, so nothing is
    captured, and [run_cmd] returns normally whatever the return code
    is. *)
Theorem compiler_invocation_shape
    (w : world) (argv args : list string) (so se : stdio) :
  In (Spawn args so se) (trace w argv) ->
  hd_error args = Some "glslangValidator" ->
  (exists (content : list string) (entry name stage ext : string),
      dir_listing w "shaders" = Some content
      /\ In entry content
      /\ split "." entry = [name; stage; ext]
      /\ args = ["glslangValidator"; "-V"; PosixPath.join "shaders" [entry];
                 "-o";
                 PosixPath.join "shaders"
                   ["bin"; (name ++ "." ++ stage ++ ".spv")%string]])
  /\ so = Inherit /\ se = Inherit
  /\ (forall (tr : list event) (rc : Z),
        spawn_result w tr args = Exited rc ->
        run_cmd args w tr = (tr ++ [Spawn args so se], inr tt)).
Proof.
  intros Hin Hhd.
  apply run_events in Hin as [H|[H|(content & entry & HL & Hc & E & H)]].
  - discriminate H.
  - unfold runner_event in H. injection H as -> -> ->.
    destruct (runner_cmd_cases argv) as [R|R]; rewrite R in Hhd;
      discriminate Hhd.
  - unfold compile_event in H. injection H as -> -> ->.
    split; [|split; [reflexivity|split; [reflexivity|]]].
    + apply eligible_split in E as (name & stage & ext & Hs).
      exists content, entry, name, stage, ext.
      repeat (split; [assumption|]).
      unfold shader_cmd, shader_name. rewrite Hs.
      unfold slice, join. simpl firstn. simpl String.concat.
      rewrite string_app_assoc. reflexivity.
    + intros tr rc. apply run_cmd_exited.
Qed.

Lemma compiler_invocation_shape_witness :
  let w := world_failing sample_listing "glslangValidator" 1 in
  let args := ["glslangValidator"; "-V"; "shaders/tri.frag.glsl"; "-o";
               "shaders/bin/tri.frag.spv"] in
  In (Spawn args Inherit Inherit) (trace w ["build.py"])
  /\ hd_error args = Some "glslangValidator"
  /\ run_cmd args w [] = ([Spawn args Inherit Inherit], inr tt).
Proof.
  intros w args.
  assert (Hin : In (Spawn args Inherit Inherit) (trace w ["build.py"]))
    by (simpl; auto).
  split; [exact Hin|]. split; [reflexivity|].
  exact (proj2 (proj2 (proj2 (compiler_invocation_shape
                                w ["build.py"] args Inherit Inherit
                                Hin eq_refl)))
           [] 1%Z eq_refl).
Defined.

(** ** An empty directory *)

(** C8. When the listing of [shaders] is empty, the compiler is never
    called and the runner is called exactly once: the trace is the
    listing followed by the runner call.  With no mode argument, that
    call carries the debug flags. *)
Theorem empty_listing_run (w : world) (argv : list string) :
  dir_listing w "shaders" = Some [] ->
  trace w argv = [Listdir "shaders"; Spawn (runner_cmd argv) Inherit Inherit]
  /\ compiler_invocations (trace w argv) = []
  /\ runner_invocations (trace w argv) = [runner_cmd argv]
  /\ (List.length argv <= 1 ->
      runner_cmd argv = ["odin"; "run"; "spark"; "-o:none"; "-debug"]).
Proof.
  intros HL.
  assert (T : trace w argv =
              [Listdir "shaders"; Spawn (runner_cmd argv) Inherit Inherit]).
  { unfold trace. rewrite run_unfold, HL. simpl for_each. unfold ret.
    now rewrite run_cmd_trace. }
  split; [exact T|]. rewrite T.
  destruct (invocations_completed [] argv) as (_ & C & R).
  split; [exact C|]. split; [exact R|].
  intros Hlen. destruct argv as [|prog [|a rest]]; try reflexivity.
  simpl in Hlen. lia.
Qed.

Lemma empty_listing_run_witness :
  dir_listing (world_without [] "odin") "shaders" = Some []
  /\ List.length ["build.py"] <= 1
  /\ trace (world_without [] "odin") ["build.py"] =
     [Listdir "shaders";
      Spawn ["odin"; "run"; "spark"; "-o:none"; "-debug"] Inherit Inherit].
Proof.
  split; [reflexivity|]. split; [simpl; lia|].
  exact (proj1 (empty_listing_run (world_without [] "odin") ["build.py"]
                  eq_refl)).
Defined.

(** ** Filtering a permuted list *)

Lemma filter_Permutation {A : Type} (f : A -> bool) (l l' : list A) :
  Permutation l l' -> Permutation (filter f l) (filter f l').
Proof.
  induction 1 as [|x l l' _ IH|x y l|l l' l'' _ IH1 _ IH2]; simpl.
  - constructor.
  - destruct (f x); [now constructor|exact IH].
  - destruct (f x), (f y); try apply Permutation_refl. constructor.
  - now transitivity (filter f l').
Qed.

(** * Further properties of the script *)

(** ** Every run, classified *)

Section Cases.

Variable w : world.

(** The loop either goes through the whole listing, or stops at the
    first eligible entry for which the compiler cannot be started. *)
Lemma loop_cases (content : list string) :
  forall tr,
    for_each content loop_body w tr =
      (tr ++ map compile_event (filter eligible content), inr tt)
    \/ exists pre entry post,
         content = pre ++ entry :: post
         /\ eligible entry = true
         /\ spawn_result w (tr ++ map compile_event (filter eligible pre))
              (shader_cmd entry (split "." entry)) = NotStarted
         /\ for_each content loop_body w tr =
            ((tr ++ map compile_event (filter eligible pre))
               ++ [compile_event entry], inl OSError).
Proof.
  induction content as [|entry rest IH]; intros tr; simpl.
  - left. unfold ret. now rewrite app_nil_r.
  - unfold bind. rewrite loop_body_eq. destruct (eligible entry) eqn:E.
    + destruct (spawn_result w tr (shader_cmd entry (split "." entry)))
        as [rc|] eqn:S.
      * rewrite (run_cmd_exited _ _ _ _ S).
        destruct (IH (tr ++ [Spawn (shader_cmd entry (split "." entry))
                               Inherit Inherit]))
          as [H|(pre & e & post & -> & E' & S' & H)].
        -- left. rewrite H. simpl. now rewrite <- app_assoc.
        -- right. exists (entry :: pre), e, post. simpl. rewrite E. simpl.
           rewrite <- (app_assoc tr [_] _) in S', H. simpl in S', H.
           repeat split; assumption.
      * right. exists [], entry, rest. simpl. rewrite app_nil_r.
        rewrite (run_cmd_not_started _ _ _ S). repeat split; assumption.
    + unfold ret.
      destruct (IH tr) as [H|(pre & e & post & -> & E' & S' & H)].
      * now left.
      * right. exists (entry :: pre), e, post. simpl. rewrite E.
        repeat split; assumption.
Qed.

Variable argv : list string.

Lemma run_cases : run_shape w argv.
Proof.
  pose proof run_unfold w argv as R.
  destruct (dir_listing w "shaders") as [content|] eqn:HL.
  - destruct (loop_cases content [Listdir "shaders"])
      as [H|(pre & entry & post & -> & E & S & H)]; rewrite H in R.
    + destruct (spawn_result w (loop_trace content) (runner_cmd argv))
        as [rc|] eqn:S.
      * apply (Completed w argv content rc HL S).
        rewrite R. apply (run_cmd_exited _ _ _ _ S).
      * apply (RunnerNotStarted w argv content HL S).
        rewrite R. apply (run_cmd_not_started _ _ _ S).
    + exact (CompilerNotStarted w argv pre post entry HL E S R).
  - exact (ListingFailed w argv HL R).
Qed.

End Cases.

(** X1. Every run of the driver has one of four shapes, and the
    environment decides which: the listing of [shaders] raises and
    nothing else happens; or the compiler cannot be started for an
    eligible entry, and the run ends with that call, after one call
    for each eligible entry before it; or every compiler call returns
    and the runner cannot be started; or the runner returns and the
    script ends normally. *)
Theorem run_has_one_of_four_shapes (w : world) (argv : list string) :
  run_shape w argv.
Proof. exact (run_cases w argv). Qed.

(** ** Runs that end with an exception *)

(** X2. When [shaders] cannot be listed, the driver starts no process
    at all, neither compiler nor runner, and exits with status 1. *)
Theorem listing_failure_spawns_nothing (w : world) (argv : list string) :
  dir_listing w "shaders" = None ->
  run w argv = ([Listdir "shaders"], inl OSError)
  /\ spawned (trace w argv) = []
  /\ driver_exit_status w argv = 1%Z.
Proof.
  intros HL.
  assert (R : run w argv = ([Listdir "shaders"], inl OSError))
    by (rewrite run_unfold, HL; reflexivity).
  unfold trace, driver_exit_status. rewrite R. auto.
Qed.

Lemma listing_failure_spawns_nothing_witness :
  let w := {| dir_listing := fun _ => None;
              spawn_result := fun _ _ => Exited 0 |} in
  dir_listing w "shaders" = None
  /\ spawned (trace w ["build.py"; "release"]) = [].
Proof.
  intros w. split; [reflexivity|].
  exact (proj1 (proj2 (listing_failure_spawns_nothing
                         w ["build.py"; "release"] eq_refl))).
Defined.

Lemma loop_compiler_starts (w : world) (content : list string) :
  compiler_starts w ->
  forall tr,
    for_each content loop_body w tr =
    (tr ++ map compile_event (filter eligible content), inr tt).
Proof.
  intros Hs tr.
  destruct (loop_cases w content tr) as [H|(pre & e & post & _ & _ & S & _)];
    [exact H|now destruct (Hs _ _ S)].
Qed.

(** X3. When the compiler can be started and the runner cannot, every
    eligible entry is compiled first, the runner call is issued last,
    and the driver ends there with an uncaught [OSError] and exit
    status 1, in release mode as in debug mode. *)
Theorem runner_failure_after_all_shaders
    (w : world) (argv content : list string) :
  dir_listing w "shaders" = Some content ->
  compiler_starts w ->
  spawn_result w (loop_trace content) (runner_cmd argv) = NotStarted ->
  run w argv = (loop_trace content ++ [runner_event argv], inl OSError)
  /\ compiler_invocations (trace w argv) =
     map (fun e => shader_cmd e (split "." e)) (filter eligible content)
  /\ driver_exit_status w argv = 1%Z.
Proof.
  intros HL Hs S.
  assert (R : run w argv =
              (loop_trace content ++ [runner_event argv], inl OSError)).
  { rewrite run_unfold, HL, (loop_compiler_starts w content Hs).
    apply (run_cmd_not_started _ _ _ S). }
  unfold trace, driver_exit_status. rewrite R.
  split; [reflexivity|]. split; [|reflexivity].
  exact (proj1 (proj2 (invocations_completed content argv))).
Qed.

Lemma runner_failure_after_all_shaders_witness :
  let w := world_without sample_listing "odin" in
  dir_listing w "shaders" = Some sample_listing
  /\ compiler_starts w
  /\ spawn_result w (loop_trace sample_listing) (runner_cmd ["build.py"])
     = NotStarted
  /\ compiler_invocations (trace w ["build.py"]) =
     [["glslangValidator"; "-V"; "shaders/tri.vert.glsl"; "-o";
       "shaders/bin/tri.vert.spv"];
      ["glslangValidator"; "-V"; "shaders/tri.frag.glsl"; "-o";
       "shaders/bin/tri.frag.spv"]]
  /\ driver_exit_status w ["build.py"] = 1%Z.
Proof.
  intros w.
  assert (Hs : compiler_starts w) by (intros tr entry; discriminate).
  split; [reflexivity|]. split; [exact Hs|]. split; [reflexivity|].
  exact (proj2 (runner_failure_after_all_shaders
                  w ["build.py"] sample_listing eq_refl Hs eq_refl)).
Defined.

(** X4. The only exception a run can end with is [OSError]: since
    [check] is left at [False], no return code of a child ever raises
    [CalledProcessError]. *)
Theorem run_never_raises_on_return_code (w : world) (argv : list string) :
  snd (run w argv) = inr tt \/ snd (run w argv) = inl OSError.
Proof.
  destruct (run_cases w argv)
    as [_ R|pre post entry _ _ _ R|content _ _ R|content rc _ _ R];
    rewrite R; auto.
Qed.

(** X5. The driver exits with status 1 exactly when the listing of
    [shaders] failed or the last call it issued is a child process
    that could not be started. *)
Theorem exit_status_one_iff_call_failed (w : world) (argv : list string) :
  driver_exit_status w argv = 1%Z <->
  (dir_listing w "shaders" = None
   \/ exists tr args,
        trace w argv = tr ++ [Spawn args Inherit Inherit]
        /\ spawn_result w tr args = NotStarted).
Proof.
  unfold driver_exit_status, trace.
  destruct (run_cases w argv)
    as [HL R|pre post entry HL E S R|content HL S R|content rc HL S R];
    rewrite R; cbn [fst snd exit_status]; split; intros H; try reflexivity.
  - now left.
  - right. now exists (loop_trace pre), (shader_cmd entry (split "." entry)).
  - right. now exists (loop_trace content), (runner_cmd argv).
  - discriminate H.
  - destruct H as [H|(tr & args & T & S')]; [congruence|].
    unfold runner_event in T. apply app_inj_tail in T as [<- T].
    injection T as <-. congruence.
Qed.

(** ** The two tests of the loop *)

(** X6. The test [if "." not in entry] never decides alone: a name
    without a dot has a single segment, so the loop body behaves as if
    only the test on the number of segments were there. *)
Theorem dot_test_is_implied (entry : string) :
  eligible entry = (List.length (split "." entry) =? 3)%nat
  /\ loop_body entry =
     if (List.length (split "." entry) =? 3)%nat
     then run_cmd (shader_cmd entry (split "." entry))
     else ret tt.
Proof.
  assert (E : eligible entry = (List.length (split "." entry) =? 3)%nat).
  { unfold eligible. rewrite contains_count, split_length.
    destruct (count "." entry) as [|[|[|n]]]; reflexivity. }
  split; [exact E|]. now rewrite loop_body_eq, E.
Qed.

(** X7. The names the loop compiles are exactly the names
    [<name>.<stage>.<ext>] with three dot-free parts, and the parts
    are determined by the name: the three items of the split are
    dot-free and give the name back, and any way of writing the name
    with three dot-free parts is the one the split finds. *)
Theorem eligible_names_decompose (entry : string) :
  (eligible entry = true ->
   exists name stage ext,
     split "." entry = [name; stage; ext]
     /\ contains "." name = false
     /\ contains "." stage = false
     /\ contains "." ext = false
     /\ entry = (name ++ "." ++ stage ++ "." ++ ext)%string)
  /\ (forall name stage ext : string,
        contains "." name = false ->
        contains "." stage = false ->
        contains "." ext = false ->
        entry = (name ++ "." ++ stage ++ "." ++ ext)%string ->
        split "." entry = [name; stage; ext] /\ eligible entry = true).
Proof.
  split.
  - intros E. apply eligible_split in E as (name & stage & ext & Hs).
    exists name, stage, ext.
    pose proof (split_segments_clean "." entry) as C. rewrite Hs in C.
    inversion C as [|? ? C1 C']; subst.
    inversion C' as [|? ? C2 C'']; subst.
    inversion C'' as [|? ? C3 _]; subst.
    repeat split; try assumption.
    exact (three_segments_name _ _ _ _ Hs).
  - intros name stage ext Hn Hs He ->.
    pose proof (three_segments_split name stage ext Hn Hs He) as H.
    split; [exact H|]. apply eligible_split. now exists name, stage, ext.
Qed.

Lemma eligible_names_decompose_witness :
  eligible "tri.vert.glsl" = true
  /\ contains "." "tri" = false /\ contains "." "vert" = false
  /\ contains "." "glsl" = false
  /\ split "." "tri.vert.glsl" = ["tri"; "vert"; "glsl"].
Proof.
  repeat (split; [reflexivity|]).
  exact (proj1 (proj2 (eligible_names_decompose "tri.vert.glsl")
                  "tri" "vert" "glsl" eq_refl eq_refl eq_refl eq_refl)).
Defined.

(** ** Output paths that collide *)

Lemma shader_name_entry (entry name stage ext : string) :
  split "." entry = [name; stage; ext] ->
  startswith PosixPath.sep entry = false ->
  shader_name (split "." entry) =
  ("shaders/bin/" ++ name ++ "." ++ stage ++ ".spv")%string.
Proof.
  intros Hs Hsep. rewrite Hs, shader_name_three.
  rewrite (three_segments_name _ _ _ _ Hs) in Hsep.
  change (name ++ "." ++ stage ++ "." ++ ext)%string
    with (name ++ String "." (stage ++ "." ++ ext))%string in Hsep.
  rewrite startswith_sep_app in Hsep. now rewrite Hsep.
Qed.

(** X8. Two compiled entries are written to the same output file
    exactly when they have the same name and the same stage: the
    extension plays no part, so [tri.vert.glsl] and [tri.vert.hlsl]
    overwrite each other, while entries that differ in name or stage
    never do. *)
Theorem output_paths_collide_iff_same_name_and_stage
    (e1 e2 n1 s1 x1 n2 s2 x2 : string) :
  split "." e1 = [n1; s1; x1] ->
  split "." e2 = [n2; s2; x2] ->
  startswith PosixPath.sep e1 = false ->
  startswith PosixPath.sep e2 = false ->
  (shader_name (split "." e1) = shader_name (split "." e2)
   <-> n1 = n2 /\ s1 = s2).
Proof.
  intros H1 H2 P1 P2.
  rewrite (shader_name_entry _ _ _ _ H1 P1), (shader_name_entry _ _ _ _ H2 P2).
  split.
  - intros H. apply string_app_inv_head in H.
    pose proof (split_segments_clean "." e1) as C1. rewrite H1 in C1.
    pose proof (split_segments_clean "." e2) as C2. rewrite H2 in C2.
    inversion C1 as [|? ? Cn1 C1']; subst.
    inversion C1' as [|? ? Cs1 _]; subst.
    inversion C2 as [|? ? Cn2 C2']; subst.
    inversion C2' as [|? ? Cs2 _]; subst.
    pose proof (three_segments_split n1 s1 "spv" Cn1 Cs1 eq_refl) as S1.
    pose proof (three_segments_split n2 s2 "spv" Cn2 Cs2 eq_refl) as S2.
    change (n1 ++ "." ++ s1 ++ ".spv")%string
      with (n1 ++ "." ++ s1 ++ "." ++ "spv")%string in H.
    change (n2 ++ "." ++ s2 ++ ".spv")%string
      with (n2 ++ "." ++ s2 ++ "." ++ "spv")%string in H.
    rewrite H, S2 in S1. injection S1 as -> ->. auto.
  - intros [-> ->]. reflexivity.
Qed.

Lemma output_paths_collide_iff_same_name_and_stage_witness :
  split "." "tri.vert.glsl" = ["tri"; "vert"; "glsl"]
  /\ split "." "tri.vert.hlsl" = ["tri"; "vert"; "hlsl"]
  /\ startswith PosixPath.sep "tri.vert.glsl" = false
  /\ startswith PosixPath.sep "tri.vert.hlsl" = false
  /\ shader_name (split "." "tri.vert.glsl") =
     shader_name (split "." "tri.vert.hlsl").
Proof.
  repeat (split; [reflexivity|]).
  apply (proj2 (output_paths_collide_iff_same_name_and_stage
                  "tri.vert.glsl" "tri.vert.hlsl"
                  "tri" "vert" "glsl" "tri" "vert" "hlsl"
                  eq_refl eq_refl eq_refl eq_refl)).
  split; reflexivity.
Defined.

(** ** What the mode cannot change *)

Lemma trace_unfold (w : world) (argv : list string) :
  trace w argv =
  match dir_listing w "shaders" with
  | None => [Listdir "shaders"]
  | Some content =>
      match for_each content loop_body w [Listdir "shaders"] with
      | (tr1, inr _) => tr1 ++ [runner_event argv]
      | (tr1, inl _) => tr1
      end
  end.
Proof.
  unfold trace. rewrite run_unfold.
  destruct (dir_listing w "shaders") as [content|]; [|reflexivity].
  destruct (for_each content loop_body w [Listdir "shaders"])
    as [tr1 [e|[]]]; [reflexivity|apply run_cmd_trace].
Qed.

(** X9. The command line changes nothing but the last call: in one
    environment, two runs with different arguments issue the same
    listing and the same compiler calls, and differ at most in the
    runner call that ends them. *)
Theorem arguments_only_change_runner_call
    (w : world) (argv1 argv2 : list string) :
  (exists tr : list event,
      (trace w argv1 = tr /\ trace w argv2 = tr)
      \/ (trace w argv1 = tr ++ [runner_event argv1]
          /\ trace w argv2 = tr ++ [runner_event argv2]))
  /\ compiler_invocations (trace w argv1) =
     compiler_invocations (trace w argv2).
Proof.
  rewrite !trace_unfold.
  destruct (dir_listing w "shaders") as [content|].
  - destruct (for_each content loop_body w [Listdir "shaders"])
      as [tr1 [e|[]]].
    + split; [exists tr1; now left|reflexivity].
    + split; [exists tr1; now right|].
      unfold compiler_invocations. rewrite !invocations_of_app.
      fold compiler_invocations.
      now rewrite (proj1 (invocations_runner argv1)),
                  (proj1 (invocations_runner argv2)).
  - split; [exists [Listdir "shaders"]; now left|reflexivity].
Qed.

(** ** What holds of every run *)

Lemma loop_trace_snoc (pre : list string) (entry : string) :
  eligible entry = true ->
  loop_trace pre ++ [compile_event entry] = loop_trace (pre ++ [entry]).
Proof.
  intros E. unfold loop_trace. rewrite filter_app, map_app. simpl.
  now rewrite E.
Qed.

Lemma observe_loop_trace (l : list string) :
  listings (loop_trace l) = ["shaders"]
  /\ spawned (loop_trace l) =
     map (fun e => shader_cmd e (split "." e)) (filter eligible l)
  /\ compiler_invocations (loop_trace l) =
     map (fun e => shader_cmd e (split "." e)) (filter eligible l)
  /\ runner_invocations (loop_trace l) = [].
Proof.
  unfold loop_trace. repeat split.
  - unfold listings. simpl. f_equal.
    induction (filter eligible l); [reflexivity|assumption].
  - unfold spawned. simpl.
    induction (filter eligible l) as [|e l' IH]; [reflexivity|].
    simpl. now rewrite IH.
  - change (Listdir "shaders" :: ?t) with ([Listdir "shaders"] ++ t).
    unfold compiler_invocations. rewrite invocations_of_app.
    fold compiler_invocations. now rewrite compiler_invocations_compile.
  - change (Listdir "shaders" :: ?t) with ([Listdir "shaders"] ++ t).
    unfold runner_invocations. rewrite invocations_of_app.
    fold runner_invocations. now rewrite runner_invocations_compile.
Qed.

Lemma observe_snoc_runner (tr : list event) (argv : list string) :
  listings (tr ++ [runner_event argv]) = listings tr
  /\ spawned (tr ++ [runner_event argv]) = spawned tr ++ [runner_cmd argv]
  /\ compiler_invocations (tr ++ [runner_event argv]) =
     compiler_invocations tr
  /\ runner_invocations (tr ++ [runner_event argv]) =
     runner_invocations tr ++ [runner_cmd argv].
Proof.
  destruct (invocations_runner argv) as [R1 R2]. repeat split.
  - unfold listings. rewrite flat_map_app. simpl. now rewrite app_nil_r.
  - unfold spawned. now rewrite flat_map_app.
  - unfold compiler_invocations in *. rewrite invocations_of_app, R1.
    now rewrite app_nil_r.
  - unfold runner_invocations in *. now rewrite invocations_of_app, R2.
Qed.

(** X10. In every run, aborted or not, over a listing [content]:
    [shaders] is listed exactly once; the compiler calls are those of
    the eligible entries of a prefix of the listing, in listing order,
    none twice and none skipped; the runner is called at most once,
    and only after the compiler has been called for every eligible
    entry; and no more processes are started than there are entries,
    plus one. *)
Theorem calls_follow_listing_in_every_run
    (w : world) (argv content : list string) :
  dir_listing w "shaders" = Some content ->
  listings (trace w argv) = ["shaders"]
  /\ (exists pre post : list string,
        content = pre ++ post
        /\ compiler_invocations (trace w argv) =
           map (fun e => shader_cmd e (split "." e)) (filter eligible pre))
  /\ (runner_invocations (trace w argv) = []
      \/ runner_invocations (trace w argv) = [runner_cmd argv]
         /\ compiler_invocations (trace w argv) =
            map (fun e => shader_cmd e (split "." e))
              (filter eligible content))
  /\ List.length (spawned (trace w argv)) <= List.length content + 1.
Proof.
  intros HL. unfold trace.
  destruct (run_cases w argv)
    as [HL' R|pre post entry HL' E S R|c HL' S R|c rc HL' S R];
    rewrite R; cbn [fst]; rewrite HL in HL'; try discriminate HL';
    injection HL' as HL'; subst.
  - rewrite (loop_trace_snoc _ _ E).
    destruct (observe_loop_trace (pre ++ [entry])) as (L & Sp & C & Rn).
    split; [exact L|]. split.
    + exists (pre ++ [entry]), post. now rewrite <- app_assoc.
    + split; [now left|]. rewrite Sp, length_map.
      pose proof (filter_length_le eligible (pre ++ [entry])) as Hle.
      rewrite !length_app in *. simpl in *. lia.
  - destruct (observe_loop_trace c) as (L & Sp & C & Rn).
    destruct (observe_snoc_runner (loop_trace c) argv) as (L' & Sp' & C' & Rn').
    rewrite L', Sp', C', Rn', L, Sp, C, Rn.
    split; [reflexivity|]. split.
    + exists c, []. now rewrite app_nil_r.
    + split; [right; now split|]. rewrite length_app, length_map.
      pose proof (filter_length_le eligible c). simpl. lia.
  - destruct (observe_loop_trace c) as (L & Sp & C & Rn).
    destruct (observe_snoc_runner (loop_trace c) argv) as (L' & Sp' & C' & Rn').
    rewrite L', Sp', C', Rn', L, Sp, C, Rn.
    split; [reflexivity|]. split.
    + exists c, []. now rewrite app_nil_r.
    + split; [right; now split|]. rewrite length_app, length_map.
      pose proof (filter_length_le eligible c). simpl. lia.
Qed.

Lemma calls_follow_listing_in_every_run_witness :
  let w := world_without sample_listing "glslangValidator" in
  dir_listing w "shaders" = Some sample_listing
  /\ listings (trace w ["build.py"]) = ["shaders"]
  /\ List.length (spawned (trace w ["build.py"]))
     <= List.length sample_listing + 1.
Proof.
  intros w. split; [reflexivity|].
  destruct (calls_follow_listing_in_every_run
              w ["build.py"] sample_listing eq_refl) as (L & _ & _ & B).
  split; [exact L|exact B].
Defined.

(** * How far a run gets *)

Section Reach.

Variable w : world.

(** When the compiler starts for every eligible entry of [l], the loop
    goes through [l]. *)
Lemma loop_reaches (l : list string) :
  compiler_starts_before w l ->
  for_each l loop_body w [Listdir "shaders"] = (loop_trace l, inr tt).
Proof.
  intros Hs.
  destruct (loop_cases w l [Listdir "shaders"])
    as [H|(pre & e & post & Hl & E & S & _)].
  - exact H.
  - now destruct (Hs pre e post Hl E).
Qed.

(** And only then. *)
Lemma loop_completed_starts (l : list string) (tr1 : list event) :
  for_each l loop_body w [Listdir "shaders"] = (tr1, inr tt) ->
  compiler_starts_before w l.
Proof.
  intros H pre e post -> E S.
  rewrite for_each_app in H. unfold bind in H.
  destruct (loop_cases w pre [Listdir "shaders"])
    as [H1|(p & e' & q & _ & _ & _ & H1)]; rewrite H1 in H;
    [|discriminate H].
  cbn [for_each] in H. unfold bind in H. rewrite loop_body_eq, E in H.
  change ([Listdir "shaders"] ++ map compile_event (filter eligible pre))
    with (loop_trace pre) in H.
  rewrite (run_cmd_not_started _ _ _ S) in H. discriminate H.
Qed.

Variable argv : list string.

(** The call for an eligible entry is in the trace as soon as the loop
    comes to the entry, whether the call succeeds or not and whatever
    happens afterwards. *)
Lemma entry_reached_is_invoked (pre post : list string) (entry : string) :
  dir_listing w "shaders" = Some (pre ++ entry :: post) ->
  compiler_starts_before w pre ->
  eligible entry = true ->
  In (compile_event entry) (trace w argv).
Proof.
  intros HL Hs E. rewrite trace_unfold, HL, for_each_app.
  unfold bind. rewrite (loop_reaches pre Hs). cbn [for_each]. unfold bind.
  rewrite loop_body_eq, E. unfold compile_event.
  destruct (spawn_result w (loop_trace pre)
              (shader_cmd entry (split "." entry))) as [rc|] eqn:S.
  - rewrite (run_cmd_exited _ _ _ _ S).
    destruct (loop_prefix w post
                (loop_trace pre ++
                 [Spawn (shader_cmd entry (split "." entry)) Inherit Inherit]))
      as (p & q & _ & T & _).
    destruct (for_each post loop_body w _) as [tr1 [e|[]]];
      simpl fst in T; subst tr1.
    + apply in_or_app. left. apply in_or_app. right. now left.
    + apply in_or_app. left. apply in_or_app. left.
      apply in_or_app. right. now left.
  - rewrite (run_cmd_not_started _ _ _ S).
    apply in_or_app. right. now left.
Qed.

(** The trace of a run in which the compiler starts for every eligible
    entry; the runner call is issued whether the runner starts or
    not. *)
Lemma trace_compiler_starts (content : list string) :
  dir_listing w "shaders" = Some content ->
  compiler_starts_before w content ->
  trace w argv = loop_trace content ++ [runner_event argv].
Proof.
  intros HL Hs. now rewrite trace_unfold, HL, (loop_reaches content Hs).
Qed.

End Reach.

(** The call issued for a listed name with three segments. *)
Lemma compile_event_three (entry name stage ext : string) :
  split "." entry = [name; stage; ext] ->
  startswith PosixPath.sep entry = false ->
  compile_event entry =
  Spawn ["glslangValidator"; "-V"; ("shaders/" ++ entry)%string; "-o";
         ("shaders/bin/" ++ name ++ "." ++ stage ++ ".spv")%string]
    Inherit Inherit.
Proof.
  intros Hs Hsep. unfold compile_event, shader_cmd.
  now rewrite join_shaders, Hsep, (shader_name_entry _ _ _ _ Hs Hsep).
Qed.

(** ** Environments that agree where the driver asks *)

Lemma run_cmd_same_at (w1 w2 : world) (cmd : list string) (tr : list event) :
  (spawn_result w1 tr cmd = NotStarted <->
   spawn_result w2 tr cmd = NotStarted) ->
  run_cmd cmd w1 tr = run_cmd cmd w2 tr.
Proof.
  intros Hs.
  destruct (spawn_result w1 tr cmd) as [rc1|] eqn:S1.
  - destruct (spawn_result w2 tr cmd) as [rc2|] eqn:S2.
    + now rewrite (run_cmd_exited _ _ _ _ S1), (run_cmd_exited _ _ _ _ S2).
    + pose proof (proj2 Hs eq_refl) as X. discriminate X.
  - pose proof (proj1 Hs eq_refl) as S2.
    now rewrite (run_cmd_not_started _ _ _ S1), (run_cmd_not_started _ _ _ S2).
Qed.

Lemma loop_same_on (w1 w2 : world) (content : list string) :
  forall tr,
    (forall pre entry post,
        content = pre ++ entry :: post ->
        eligible entry = true ->
        (spawn_result w1 (tr ++ map compile_event (filter eligible pre))
           (shader_cmd entry (split "." entry)) = NotStarted <->
         spawn_result w2 (tr ++ map compile_event (filter eligible pre))
           (shader_cmd entry (split "." entry)) = NotStarted)) ->
    for_each content loop_body w1 tr = for_each content loop_body w2 tr.
Proof.
  induction content as [|entry rest IH]; intros tr H; [reflexivity|].
  cbn [for_each]. unfold bind. rewrite !loop_body_eq.
  destruct (eligible entry) eqn:E.
  - pose proof (H [] entry rest eq_refl E) as H0.
    cbn [filter map] in H0. rewrite app_nil_r in H0.
    rewrite (run_cmd_same_at w1 w2 _ tr H0).
    pose proof (run_cmd_trace (shader_cmd entry (split "." entry)) w2 tr) as T.
    destruct (run_cmd _ w2 tr) as [tr1 [e|[]]]; [reflexivity|].
    simpl fst in T. subst tr1. apply IH.
    intros pre e post -> E'.
    pose proof (H (entry :: pre) e post eq_refl E') as H1.
    cbn [filter] in H1. rewrite E in H1. cbn [map] in H1.
    rewrite <- app_assoc. exact H1.
  - unfold ret. apply IH.
    intros pre e post -> E'.
    pose proof (H (entry :: pre) e post eq_refl E') as H1.
    cbn [filter] in H1. rewrite E in H1. exact H1.
Qed.

(** The run depends on the environment only through the listing and
    through which of the child processes it starts can be started. *)
Lemma run_same_on (w1 w2 : world) (content argv : list string) :
  dir_listing w1 "shaders" = Some content ->
  dir_listing w2 "shaders" = Some content ->
  same_starts_on w1 w2 content argv ->
  run w1 argv = run w2 argv.
Proof.
  intros HL1 HL2 [Hc Hr]. rewrite !run_unfold, HL1, HL2.
  rewrite (loop_same_on w1 w2 content [Listdir "shaders"] Hc).
  destruct (for_each content loop_body w2 [Listdir "shaders"])
    as [tr1 [e|[]]] eqn:L; [reflexivity|].
  apply loop_completed in L. subst tr1.
  apply run_cmd_same_at. exact Hr.
Qed.

(** ** Which entries are compiled, in a run *)

(** C1, for the entries the loop comes to.  For an entry of the listing
    of [shaders]: the driver calls the shader compiler on it only if
    its name contains a dot and splits on dots into three segments,
    that is, has exactly two dots; and it does call the compiler on
    such an entry whenever the compiler could be started for every
    eligible entry listed before it, whatever the return codes were.
    An entry with no dot, with fewer or with more than three segments
    is skipped silently: the loop body issues no call and raises
    nothing, and no run ever holds a compiler call for it. *)
Theorem compiler_invoked_iff_three_segments
    (w : world) (argv content : list string) (entry : string) :
  dir_listing w "shaders" = Some content ->
  In entry content ->
  (forall pre post : list string,
      content = pre ++ entry :: post ->
      compiler_starts_before w pre ->
      ((exists ev, In ev (trace w argv) /\ compiles_entry ev entry) <->
       (contains "." entry = true /\ List.length (split "." entry) = 3)))
  /\ ((exists ev, In ev (trace w argv) /\ compiles_entry ev entry) ->
      contains "." entry = true /\ List.length (split "." entry) = 3)
  /\ (~ (contains "." entry = true /\ List.length (split "." entry) = 3) ->
        ~ (exists ev, In ev (trace w argv) /\ compiles_entry ev entry)
        /\ forall tr, loop_body entry w tr = (tr, inr tt))
  /\ ((contains "." entry = true /\ List.length (split "." entry) = 3) <->
      count "." entry = 2).
Proof.
  intros HL Hin.
  split; [|split; [|split]].
  - intros pre post Hc Hs. rewrite <- eligible_iff.
    split; [apply invoked_eligible|].
    intros E. exists (compile_event entry). split.
    + subst content.
      exact (entry_reached_is_invoked w argv pre post entry HL Hs E).
    + unfold compile_event, shader_cmd, compiles_entry. eauto.
  - rewrite <- eligible_iff. apply invoked_eligible.
  - rewrite <- eligible_iff. intros H. split.
    + intros Hi. apply H. exact (invoked_eligible _ _ _ Hi).
    + intros tr. apply loop_body_skip.
      destruct (eligible entry); [now destruct H|reflexivity].
  - rewrite <- eligible_iff. apply eligible_two_dots.
Qed.

Lemma compiler_invoked_iff_three_segments_witness :
  let w := world_without sample_listing "odin" in
  dir_listing w "shaders" = Some sample_listing
  /\ In "tri.frag.glsl" sample_listing
  /\ sample_listing =
     ["tri.vert.glsl"; "bin"] ++ "tri.frag.glsl" :: ["readme.txt"; "a.b.c.glsl"]
  /\ compiler_starts_before w ["tri.vert.glsl"; "bin"]
  /\ (exists ev, In ev (trace w ["build.py"])
                 /\ compiles_entry ev "tri.frag.glsl")
  /\ ~ (exists ev, In ev (trace w ["build.py"])
                   /\ compiles_entry ev "readme.txt").
Proof.
  intros w.
  assert (HL : dir_listing w "shaders" = Some sample_listing) by reflexivity.
  assert (I1 : In "tri.frag.glsl" sample_listing) by (simpl; auto).
  assert (I2 : In "readme.txt" sample_listing) by (simpl; auto 6).
  assert (Hs : compiler_starts_before w ["tri.vert.glsl"; "bin"]).
  { intros pre e post _ _. discriminate. }
  split; [exact HL|]. split; [exact I1|]. split; [reflexivity|].
  split; [exact Hs|]. split.
  - apply (proj1 (compiler_invoked_iff_three_segments
                    w ["build.py"] _ "tri.frag.glsl" HL I1)
             ["tri.vert.glsl"; "bin"] ["readme.txt"; "a.b.c.glsl"]
             eq_refl Hs).
    split; reflexivity.
  - apply (proj1 (proj2 (proj2 (compiler_invoked_iff_three_segments
                                  w ["build.py"] _ "readme.txt" HL I2)))).
    intros [_ H]. discriminate H.
Defined.

(** C1 does not hold of every entry of every run: when the compiler
    cannot be started, the run ends at the first eligible entry, and
    an eligible entry listed after it is never compiled. *)
Lemma eligible_entry_not_compiled_when_compiler_missing :
  let w := world_without ["sky.vert.glsl"; "sky.frag.glsl"]
             "glslangValidator" in
  dir_listing w "shaders" = Some ["sky.vert.glsl"; "sky.frag.glsl"]
  /\ In "sky.frag.glsl" ["sky.vert.glsl"; "sky.frag.glsl"]
  /\ contains "." "sky.frag.glsl" = true
  /\ List.length (split "." "sky.frag.glsl") = 3
  /\ ~ (exists ev, In ev (trace w ["build.py"])
                   /\ compiles_entry ev "sky.frag.glsl").
Proof.
  intros w. split; [reflexivity|]. split; [simpl; auto|].
  split; [reflexivity|]. split; [reflexivity|].
  intros (ev & Hin & out & so & se & ->).
  destruct Hin as [H|[H|[]]]; discriminate H.
Qed.

(** ** The order of the calls *)

(** C4, for the runs in which the compiler starts.  In every run in
    which the listing of [shaders] succeeds and the compiler can be
    started for every eligible entry, whatever the return codes are
    and whether or not the runner itself can be started, the calls are
    in this order: [shaders] is listed once, first; then the compiler
    is called once per eligible entry, each call returning before the
    next is issued; then the runner is called exactly once.  These are
    the only runs over a listing with that sequence of calls. *)
Theorem invocation_sequence_when_compiler_starts
    (w : world) (argv content : list string) :
  dir_listing w "shaders" = Some content ->
  (compiler_starts_before w content <->
   trace w argv =
     (Listdir "shaders" :: map compile_event (filter eligible content))
       ++ [runner_event argv])
  /\ (compiler_starts_before w content ->
      listings (trace w argv) = ["shaders"]
      /\ compiler_invocations (trace w argv) =
         map (fun e => shader_cmd e (split "." e)) (filter eligible content)
      /\ runner_invocations (trace w argv) = [runner_cmd argv]).
Proof.
  intros HL.
  assert (F : compiler_starts_before w content ->
              trace w argv =
                (Listdir "shaders" :: map compile_event (filter eligible content))
                  ++ [runner_event argv])
    by exact (trace_compiler_starts w argv content HL).
  split; [split; [exact F|]|].
  - intros T. rewrite trace_unfold, HL in T.
    destruct (for_each content loop_body w [Listdir "shaders"])
      as [tr1 [e|[]]] eqn:L.
    + destruct (loop_cases w content [Listdir "shaders"])
        as [H|(pre & e' & post & Hc & E & S & H)]; rewrite H in L;
        [discriminate L|].
      injection L as <- <-.
      change (Listdir "shaders"
                :: map compile_event (filter eligible pre) ++ [compile_event e'])
        with ((Listdir "shaders" :: map compile_event (filter eligible pre))
                ++ [compile_event e']) in T.
      apply app_inj_tail in T as [_ T].
      unfold compile_event, runner_event in T. injection T as T.
      destruct (runner_cmd_cases argv) as [R|R]; rewrite R in T;
        discriminate T.
    + exact (loop_completed_starts w content tr1 L).
  - intros Hs. rewrite (F Hs). exact (invocations_completed content argv).
Qed.

Lemma invocation_sequence_when_compiler_starts_witness :
  let w := world_without sample_listing "odin" in
  dir_listing w "shaders" = Some sample_listing
  /\ compiler_starts_before w sample_listing
  /\ compiler_invocations (trace w ["build.py"])
     = [["glslangValidator"; "-V"; "shaders/tri.vert.glsl"; "-o";
         "shaders/bin/tri.vert.spv"];
        ["glslangValidator"; "-V"; "shaders/tri.frag.glsl"; "-o";
         "shaders/bin/tri.frag.spv"]]
  /\ runner_invocations (trace w ["build.py"])
     = [["odin"; "run"; "spark"; "-o:none"; "-debug"]].
Proof.
  intros w.
  assert (Hs : compiler_starts_before w sample_listing).
  { intros pre e post _ _. discriminate. }
  split; [reflexivity|]. split; [exact Hs|].
  destruct (proj2 (invocation_sequence_when_compiler_starts
                     w ["build.py"] sample_listing eq_refl) Hs)
    as (_ & C & R).
  split; [exact C|exact R].
Defined.

(** C4 does not hold of every run.  When the compiler cannot be
    started, the first compiler call is the last call of the run:
    with two eligible entries in the listing, only one compiler call
    is issued and the runner is never called.  When [shaders] cannot
    be listed, the runner is not called either. *)
Lemma runner_not_called_when_compiler_missing :
  let w := world_without sample_listing "glslangValidator" in
  let w' := {| dir_listing := fun _ => None;
               spawn_result := fun _ _ => Exited 0 |} in
  dir_listing w "shaders" = Some sample_listing
  /\ filter eligible sample_listing = ["tri.vert.glsl"; "tri.frag.glsl"]
  /\ trace w ["build.py"] =
     [Listdir "shaders"; compile_event "tri.vert.glsl"]
  /\ runner_invocations (trace w ["build.py"]) = []
  /\ trace w ["build.py"] <>
     Listdir "shaders" :: map compile_event (filter eligible sample_listing)
       ++ [runner_event ["build.py"]]
  /\ runner_invocations (trace w' ["build.py"]) = [].
Proof.
  intros w w'. repeat (split; [reflexivity|]). split; [|reflexivity].
  intros H. discriminate H.
Qed.

(** ** The exit status of the driver *)

(** C6, for the exit status the code gives.  The driver never sets its
    exit status: it is the one of the interpreter, 0 when the script
    reaches its end and 1 when an exception is not caught.  It is 0
    exactly when [shaders] can be listed, the compiler can be started
    for every eligible entry and the runner can be started, whatever
    the return codes of these processes are: the status is not the
    return code of the runner, and a compilation that fails with a
    non-zero return code leaves it at 0. *)
Theorem driver_exit_status_is_interpreters (w : world) (argv : list string) :
  (driver_exit_status w argv = 0%Z <->
   exists content : list string,
     dir_listing w "shaders" = Some content
     /\ compiler_starts_before w content
     /\ spawn_result w (loop_trace content) (runner_cmd argv) <> NotStarted)
  /\ (forall (content : list string) (rc : Z),
        dir_listing w "shaders" = Some content ->
        compiler_starts_before w content ->
        spawn_result w (loop_trace content) (runner_cmd argv) = Exited rc ->
        driver_exit_status w argv = 0%Z)
  /\ (driver_exit_status w argv = 0%Z \/ driver_exit_status w argv = 1%Z).
Proof.
  assert (Z0 : forall content rc,
             dir_listing w "shaders" = Some content ->
             compiler_starts_before w content ->
             spawn_result w (loop_trace content) (runner_cmd argv) = Exited rc ->
             driver_exit_status w argv = 0%Z).
  { intros content rc HL Hs S. unfold driver_exit_status.
    rewrite run_unfold, HL, (loop_reaches w content Hs).
    now rewrite (run_cmd_exited _ _ _ _ S). }
  split; [split|split].
  - unfold driver_exit_status. rewrite run_unfold.
    destruct (dir_listing w "shaders") as [content|] eqn:HL;
      [|intros H; discriminate H].
    destruct (for_each content loop_body w [Listdir "shaders"])
      as [tr1 [e|[]]] eqn:L; [intros H; discriminate H|].
    pose proof (loop_completed_starts w content tr1 L) as Hs.
    apply loop_completed in L. subst tr1.
    rewrite run_cmd_result. intros H.
    exists content. split; [reflexivity|]. split; [exact Hs|].
    intros S.
    change ([Listdir "shaders"] ++ map compile_event (filter eligible content))
      with (loop_trace content) in H.
    rewrite S in H. discriminate H.
  - intros (content & HL & Hs & Hr).
    destruct (spawn_result w (loop_trace content) (runner_cmd argv))
      as [rc|] eqn:S; [|now destruct Hr].
    exact (Z0 content rc HL Hs S).
  - exact Z0.
  - unfold driver_exit_status, exit_status.
    destruct (snd (run w argv)); auto.
Qed.

Lemma driver_exit_status_is_interpreters_witness :
  let w := world_failing sample_listing "glslangValidator" 1 in
  dir_listing w "shaders" = Some sample_listing
  /\ compiler_starts_before w sample_listing
  /\ spawn_result w (loop_trace sample_listing)
       (shader_cmd "tri.vert.glsl" (split "." "tri.vert.glsl")) = Exited 1
  /\ spawn_result w (loop_trace sample_listing)
       (runner_cmd ["build.py"; "release"]) = Exited 0
  /\ driver_exit_status w ["build.py"; "release"] = 0%Z.
Proof.
  intros w.
  assert (Hs : compiler_starts_before w sample_listing).
  { intros pre e post _ _. discriminate. }
  split; [reflexivity|]. split; [exact Hs|]. split; [reflexivity|].
  split; [reflexivity|].
  exact (proj1 (proj2 (driver_exit_status_is_interpreters
                         w ["build.py"; "release"]))
           sample_listing 0%Z eq_refl Hs eq_refl).
Defined.

(** C6 does not hold of the runner: the exit status of the driver is
    not the one of its last child.  Here the runner, the last process
    of the run, exits with 3 and the driver exits with 0. *)
Lemma driver_exit_status_not_inherited :
  let w := world_failing sample_listing "odin" 3 in
  exists tr : list event,
    run w ["build.py"] = (tr ++ [runner_event ["build.py"]], inr tt)
    /\ spawn_result w tr (runner_cmd ["build.py"]) = Exited 3
    /\ driver_exit_status w ["build.py"] <> 3%Z.
Proof.
  exists (Listdir "shaders" :: map compile_event (filter eligible sample_listing)).
  repeat split. intros H. discriminate H.
Qed.

(** ** Two runs on the same inputs *)




(** ** Empty segments *)

(** C10, for the entries the loop comes to.  A segment may be empty.
    When the listing holds a name made of three dot-free segments
    around two dots, one or more of them empty, and the compiler
    could be started for every eligible entry listed before it, the
    run holds a compiler call for it, and the output path of that call
    keeps the first two segments as they are, empty or not:
    [.vert.glsl] is compiled to [shaders/bin/.vert.spv] and [a.b.] to
    [shaders/bin/a.b.spv]. *)
Theorem empty_segments_are_eligible
    (w : world) (argv pre post : list string) (name stage ext : string) :
  contains "." name = false ->
  contains "." stage = false ->
  contains "." ext = false ->
  name = "" \/ stage = "" \/ ext = "" ->
  startswith PosixPath.sep name = false ->
  dir_listing w "shaders" =
    Some (pre ++ (name ++ "." ++ stage ++ "." ++ ext)%string :: post) ->
  compiler_starts_before w pre ->
  In (Spawn ["glslangValidator"; "-V";
             ("shaders/" ++ name ++ "." ++ stage ++ "." ++ ext)%string;
             "-o";
             ("shaders/bin/" ++ name ++ "." ++ stage ++ ".spv")%string]
        Inherit Inherit)
     (trace w argv).
Proof.
  intros Hn Hs He _ Hsep HL Hb.
  pose proof (three_segments_split name stage ext Hn Hs He) as Hsplit.
  assert (E : eligible (name ++ "." ++ stage ++ "." ++ ext) = true)
    by (apply eligible_split; now exists name, stage, ext).
  assert (Hsep' : startswith PosixPath.sep
                    (name ++ "." ++ stage ++ "." ++ ext) = false).
  { change (name ++ "." ++ stage ++ "." ++ ext)%string
      with (name ++ String "." (stage ++ "." ++ ext))%string.
    now rewrite startswith_sep_app. }
  rewrite <- (compile_event_three _ name stage ext Hsplit Hsep').
  exact (entry_reached_is_invoked w argv pre post _ HL Hb E).
Qed.

Lemma empty_segments_are_eligible_witness :
  let w := world_failing ["readme.txt"; ".vert.glsl"; "a.b."]
             "glslangValidator" 1 in
  compiler_starts_before w ["readme.txt"]
  /\ compiler_starts_before w ["readme.txt"; ".vert.glsl"]
  /\ In (Spawn ["glslangValidator"; "-V"; "shaders/.vert.glsl"; "-o";
                "shaders/bin/.vert.spv"] Inherit Inherit)
        (trace w ["build.py"])
  /\ In (Spawn ["glslangValidator"; "-V"; "shaders/a.b."; "-o";
                "shaders/bin/a.b.spv"] Inherit Inherit)
        (trace w ["build.py"]).
Proof.
  intros w.
  assert (H1 : compiler_starts_before w ["readme.txt"]).
  { intros pre e post _ _. discriminate. }
  assert (H2 : compiler_starts_before w ["readme.txt"; ".vert.glsl"]).
  { intros pre e post _ _. discriminate. }
  split; [exact H1|]. split; [exact H2|]. split.
  - exact (empty_segments_are_eligible
             w ["build.py"] ["readme.txt"] ["a.b."] "" "vert" "glsl"
             eq_refl eq_refl eq_refl (or_introl eq_refl) eq_refl eq_refl H1).
  - exact (empty_segments_are_eligible
             w ["build.py"] ["readme.txt"; ".vert.glsl"] [] "a" "b" ""
             eq_refl eq_refl eq_refl (or_intror (or_intror eq_refl))
             eq_refl eq_refl H2).
Defined.

(** C10 does not hold of every run: a name with an empty segment that
    is listed after an eligible entry is never compiled when the
    compiler cannot be started, because the run ends at that earlier
    entry. *)
Lemma empty_segment_entry_not_compiled_when_compiler_missing :
  let w := world_without ["a.vert.glsl"; ".vert.glsl"] "glslangValidator" in
  dir_listing w "shaders" = Some ["a.vert.glsl"; ".vert.glsl"]
  /\ split "." ".vert.glsl" = [""; "vert"; "glsl"]
  /\ ~ (exists ev, In ev (trace w ["build.py"])
                   /\ compiles_entry ev ".vert.glsl").
Proof.
  intros w. split; [reflexivity|]. split; [reflexivity|].
  intros (ev & Hin & out & so & se & ->).
  destruct Hin as [H|[H|[]]]; discriminate H.
Qed.
